(** * Add2CudaCudnn: the cuDNN elementwise-addition operator of nnabla-ext-cuda

    A shallow embedding of [include/nbla/cuda/cudnn/function/add2.hpp].

    The header defines the constructor, the destructor, [name] and
    [allowed_array_classes] inline; [setup_impl], [forward_impl] and
    [backward_impl] are only declared there.  The C++ standard library
    ([std::stoi]) and the cuDNN descriptor API are modelled as the environment
    the class runs in. *)

From Stdlib Require Import Ascii String ZArith.
From stdpp Require Import base strings list gmap.

Local Open Scope Z_scope.

(** ** Exceptions and the process state *)

(** Status codes of the cuDNN API (the ones the descriptor calls return). *)
Inductive cudnnStatus_t :=
  | CUDNN_STATUS_SUCCESS
  | CUDNN_STATUS_ALLOC_FAILED
  | CUDNN_STATUS_BAD_PARAM
  | CUDNN_STATUS_NOT_SUPPORTED.

Global Instance cudnnStatus_eq_dec : EqDecision cudnnStatus_t.
Proof. solve_decision. Defined.

(** What a call of this class can throw, and the end of the process through
    [std::terminate]. *)
Inductive exception :=
  | std_invalid_argument                 (* std::stoi: no conversion *)
  | std_out_of_range                     (* std::stoi: does not fit an int *)
  | cudnn_error (st : cudnnStatus_t)     (* NBLA_CUDNN_CHECK failed *)
  | shape_error                          (* Setup: incompatible shapes *)
  | device_error                         (* a device call reported failure *)
  | arity_error                          (* not two inputs and one output *)
  | std_terminate.                       (* an exception left a destructor *)

Global Instance exception_eq_dec : EqDecision exception.
Proof. solve_decision. Defined.

Inductive result (A : Type) :=
  | Ok (a : A)
  | Throw (e : exception).
Arguments Ok {A} a.
Arguments Throw {A} e.

(** [Shape_t] is [vector<int64_t>]; extents are kept as naturals. *)
Abbreviation Shape_t := (list nat).

Definition shape_size (sh : Shape_t) : nat := foldr Nat.mul 1%nat sh.

(** A cuDNN tensor descriptor is an opaque handle; the library keeps, per live
    handle, the layout it was last configured with ([None] right after
    creation). *)
Abbreviation cudnnTensorDescriptor_t := nat.

(** Acquire/release log of the descriptor API. *)
Inductive cudnn_event :=
  | Created (h : cudnnTensorDescriptor_t)
  | Destroyed (h : cudnnTensorDescriptor_t).

Global Instance cudnn_event_eq_dec : EqDecision cudnn_event.
Proof. solve_decision. Defined.

Definition event_handle (e : cudnn_event) : cudnnTensorDescriptor_t :=
  match e with Created h | Destroyed h => h end.

(** The [Cuda] class of [nbla/cuda/cuda.hpp], which is not part of the header:
    only the list [array_classes()] returns is kept. *)
Record Cuda := { array_classes_ : list string }.

Definition array_classes (c : Cuda) : list string := array_classes_ c.

(** The state of the process an operator lives in: the cuDNN library's
    descriptor table and the singleton registry. *)
Record process := {
  cudnn_descs : gmap nat (option Shape_t);   (* live descriptors *)
  cudnn_next : nat;                          (* next handle to hand out *)
  cudnn_capacity : nat;                      (* descriptors that still fit *)
  cudnn_log : list cudnn_event;
  singleton_Cuda : option Cuda;              (* SingletonManager's Cuda slot *)
}.

(** Computations that read and write the process state and may throw; a throw
    keeps the effects performed before it, as a C++ exception does. *)
Definition M (A : Type) : Type := process → result A * process.

Definition throw {A} (e : exception) : M A := λ p, (Throw e, p).

Global Instance M_ret : MRet M := λ A a p, (Ok a, p).
Global Instance M_bind : MBind M := λ A B k m p,
  match m p with
  | (Ok a, p') => k a p'
  | (Throw e, p') => (Throw e, p')
  end.

(** A pure computation that may throw, run inside [M]. *)
Definition lift_result {A} (r : result A) : M A := λ p, (r, p).

(** ** std::stoi *)

(** [std::isspace] in the "C" locale: space, \t, \n, \v, \f, \r. *)
Definition isspace (c : ascii) : bool :=
  let n := Z.of_nat (nat_of_ascii c) in
  (n =? 32) || ((9 <=? n) && (n <=? 13)).

Definition digit_value (c : ascii) : option Z :=
  let n := Z.of_nat (nat_of_ascii c) in
  if (48 <=? n) && (n <=? 57) then Some (n - 48) else None.

Fixpoint skip_spaces (s : string) : string :=
  match s with
  | String c r => if isspace c then skip_spaces r else s
  | EmptyString => s
  end.

(** The longest prefix of decimal digits, accumulated left to right. *)
Fixpoint parse_digits (s : string) (acc : Z) : Z :=
  match s with
  | String c r =>
      match digit_value c with
      | Some d => parse_digits r (10 * acc + d)
      | None => acc
      end
  | EmptyString => acc
  end.

Definition INT_MIN : Z := - 2 ^ 31.
Definition INT_MAX : Z := 2 ^ 31 - 1.

Definition strip_sign (s : string) : bool * string :=
  match s with
  | String c r =>
      if Ascii.eqb c "-"%char then (true, r)
      else if Ascii.eqb c "+"%char then (false, r)
      else (false, s)
  | EmptyString => (false, s)
  end.

(** [std::stoi(str)] with base 10: skips leading white space, takes an
    optional sign and as many digits as there are, and ignores what follows;
    [std::invalid_argument] when there is no digit to convert,
    [std::out_of_range] when the value does not fit an [int]. *)
Definition stoi (str : string) : result Z :=
  let '(neg, body) := strip_sign (skip_spaces str) in
  match body with
  | String c _ =>
      match digit_value c with
      | Some _ =>
          let v := parse_digits body 0 in
          let v := if neg then - v else v in
          if (INT_MIN <=? v) && (v <=? INT_MAX) then Ok v
          else Throw std_out_of_range
      | None => Throw std_invalid_argument
      end
  | EmptyString => Throw std_invalid_argument
  end.

(** ** The cuDNN descriptor API *)

(** [cudnnCreateTensorDescriptor(&d)]: hands out a fresh handle, or reports
    [CUDNN_STATUS_ALLOC_FAILED] when the library cannot allocate one.  The
    handle is returned next to the status ([0] when nothing was written). *)
Definition cudnnCreateTensorDescriptor
    (p : process) : (cudnnStatus_t * cudnnTensorDescriptor_t) * process :=
  match cudnn_capacity p with
  | O => ((CUDNN_STATUS_ALLOC_FAILED, 0%nat), p)
  | S c =>
      let h := cudnn_next p in
      ((CUDNN_STATUS_SUCCESS, h),
       {| cudnn_descs := <[h := None]> (cudnn_descs p);
          cudnn_next := S h;
          cudnn_capacity := c;
          cudnn_log := cudnn_log p ++ [Created h];
          singleton_Cuda := singleton_Cuda p |})
  end.

(** [cudnnDestroyTensorDescriptor(d)]: releases a live descriptor; a handle
    that is not live is rejected with [CUDNN_STATUS_BAD_PARAM]. *)
Definition cudnnDestroyTensorDescriptor
    (h : cudnnTensorDescriptor_t) (p : process) : cudnnStatus_t * process :=
  match cudnn_descs p !! h with
  | Some _ =>
      (CUDNN_STATUS_SUCCESS,
       {| cudnn_descs := delete h (cudnn_descs p);
          cudnn_next := cudnn_next p;
          cudnn_capacity := S (cudnn_capacity p);
          cudnn_log := cudnn_log p ++ [Destroyed h];
          singleton_Cuda := singleton_Cuda p |})
  | None => (CUDNN_STATUS_BAD_PARAM, p)
  end.

(** [cudnnSetTensor*Descriptor(d, ...)]: configures a live descriptor with a
    layout. *)
Definition cudnnSetTensorDescriptor
    (h : cudnnTensorDescriptor_t) (sh : Shape_t) (p : process)
    : cudnnStatus_t * process :=
  match cudnn_descs p !! h with
  | Some _ =>
      (CUDNN_STATUS_SUCCESS,
       {| cudnn_descs := <[h := Some sh]> (cudnn_descs p);
          cudnn_next := cudnn_next p;
          cudnn_capacity := cudnn_capacity p;
          cudnn_log := cudnn_log p;
          singleton_Cuda := singleton_Cuda p |})
  | None => (CUDNN_STATUS_BAD_PARAM, p)
  end.

(** Modelled from the spec: the macro [NBLA_CUDNN_CHECK] of
    [nbla/cuda/cudnn/cudnn.hpp], which is not part of the header: a status
    other than success is a resource error, "fatal, surfaced immediately, no
    retry". *)
Definition NBLA_CUDNN_CHECK {A} (call : process → (cudnnStatus_t * A) * process)
    : M A :=
  λ p, match call p with
       | ((CUDNN_STATUS_SUCCESS, a), p') => (Ok a, p')
       | ((st, _), p') => (Throw (cudnn_error st), p')
       end.

Definition status_only (call : process → cudnnStatus_t * process)
    : process → (cudnnStatus_t * unit) * process :=
  λ p, let '(st, p') := call p in ((st, tt), p').

(** ** The class *)

(** [nbla::Context]: the field the constructor reads. *)
Record Context := { device_id : string }.

(** The members of [Add2CudaCudnn<T>].  [ctx_] and [inplace_] stand for the
    base-class part, [cudnn_handle_] is declared but not initialised by the
    constructor. *)
Record Add2CudaCudnn := {
  ctx_ : Context;
  inplace_ : bool;
  device_ : Z;
  cudnn_handle_ : option nat;
  input_desc_ : cudnnTensorDescriptor_t;
  output_desc_ : cudnnTensorDescriptor_t;
}.

(** Modelled from the spec: the base-class constructor [Add2Cuda<T>(ctx,
    inplace)] of [nbla/cuda/function/add2.hpp], which is not part of the
    header: it "records whether output aliases an input's storage" and keeps
    the context. *)
Definition Add2Cuda_new (ctx : Context) (inplace : bool) : M (Context * bool) :=
  mret (ctx, inplace).

(** The constructor: the member initialisers run first (base class, then
    [device_(std::stoi(ctx.device_id))]), then the body creates the two
    descriptors. *)
Definition Add2CudaCudnn_new (ctx : Context) (inplace : bool) : M Add2CudaCudnn :=
  base ← Add2Cuda_new ctx inplace;
  device ← lift_result (stoi (device_id ctx));
  input_desc ← NBLA_CUDNN_CHECK cudnnCreateTensorDescriptor;
  output_desc ← NBLA_CUDNN_CHECK cudnnCreateTensorDescriptor;
  mret {| ctx_ := base.1; inplace_ := base.2; device_ := device;
         cudnn_handle_ := None;
         input_desc_ := input_desc; output_desc_ := output_desc |}.

(** A destructor without an exception specification is [noexcept]: an
    exception that would leave it does not reach the caller, the process ends
    through [std::terminate]. *)
Definition noexcept {A} (m : M A) : M A :=
  λ p, match m p with
       | (Ok a, p') => (Ok a, p')
       | (Throw _, p') => (Throw std_terminate, p')
       end.

(** The destructor. *)
Definition Add2CudaCudnn_delete (self : Add2CudaCudnn) : M unit :=
  noexcept
    (NBLA_CUDNN_CHECK (status_only (cudnnDestroyTensorDescriptor (input_desc_ self)));;
     NBLA_CUDNN_CHECK (status_only (cudnnDestroyTensorDescriptor (output_desc_ self)))).

Definition name (self : Add2CudaCudnn) : string := "Add2CudaCudnn".

(** [allowed_array_classes()] asks the singleton manager for the [Cuda]
    singleton and returns its list of array classes.
    [SingletonManager::get<Cuda>()] creates the singleton on first use; a fresh
    one is [Cuda_new] (the constructor of [Cuda] is outside the header). *)
Definition SingletonManager_get_Cuda (Cuda_new : Cuda) : M Cuda :=
  λ p, match singleton_Cuda p with
       | Some c => (Ok c, p)
       | None =>
           (Ok Cuda_new,
            {| cudnn_descs := cudnn_descs p;
               cudnn_next := cudnn_next p;
               cudnn_capacity := cudnn_capacity p;
               cudnn_log := cudnn_log p;
               singleton_Cuda := Some Cuda_new |})
       end.

Definition allowed_array_classes (Cuda_new : Cuda) (self : Add2CudaCudnn)
    : M (list string) :=
  c ← SingletonManager_get_Cuda Cuda_new;
  mret (array_classes c).

(** ** Tensor handles *)

(** [nbla::Variable]: shape metadata plus the data and gradient storage. *)
Record Variable_t (T : Type) := {
  shape : Shape_t;
  data : list T;
  grad : list T;
}.
Arguments shape {T} _.
Arguments data {T} _.
Arguments grad {T} _.

Definition set_data {T} (d : list T) (v : Variable_t T) : Variable_t T :=
  {| shape := shape v; data := d; grad := grad v |}.
Definition set_grad {T} (g : list T) (v : Variable_t T) : Variable_t T :=
  {| shape := shape v; data := data v; grad := g |}.

(** A tensor whose storage has as many elements as its shape says. *)
Definition well_sized {T} (v : Variable_t T) : Prop :=
  length (data v) = shape_size (shape v).

(** ** Setup, Forward and Backward *)

Section Add2.
(** The element type of the template, its addition, and what freshly
    allocated storage holds. *)
Context {T : Type} (add : T → T → T) (uninit : T).
(** The framework's rule for shapes an elementwise operator accepts. *)
Context (compatible : Shape_t → Shape_t → bool).

Abbreviation Variables := (list (Variable_t T)).

(** The output tensor Setup hands back: input 0's shape, storage aliased to
    input 0's in in-place mode and freshly allocated otherwise. *)
Definition setup_output (self : Add2CudaCudnn) (x0 y : Variable_t T)
    : Variable_t T :=
  {| shape := shape x0;
     data := if inplace_ self then data x0
             else replicate (shape_size (shape x0)) uninit;
     grad := grad y |}.

(** Modelled from the spec: [setup_impl], declared in the header and defined
    outside it.  Setup "validates that both inputs share compatible shape,
    configures the two shape descriptors to match the tensors'
    dimensionality/layout, and allocates or aliases the output tensor's
    storage according to the in-place flag"; it "fails with a shape-mismatch
    error" on incompatible inputs.  The operator takes two inputs and one
    output; any other arity is rejected. *)
Definition setup_impl (self : Add2CudaCudnn) (inputs outputs : Variables)
    : M Variables :=
  match inputs, outputs with
  | [x0; x1], [y] =>
      if compatible (shape x0) (shape x1) then
        NBLA_CUDNN_CHECK
          (status_only (cudnnSetTensorDescriptor (input_desc_ self) (shape x0)));;
        NBLA_CUDNN_CHECK
          (status_only (cudnnSetTensorDescriptor (output_desc_ self) (shape x0)));;
        mret [setup_output self x0 y]
      else throw shape_error
  | _, _ => throw arity_error
  end.

(** Whether descriptor [h] is live and configured for shape [sh]. *)
Definition configured (h : cudnnTensorDescriptor_t) (sh : Shape_t)
    (p : process) : bool :=
  bool_decide (cudnn_descs p !! h = Some (Some sh)).

(** Modelled from the spec: [forward_impl], declared in the header and
    defined outside it.  Forward "computes output = input0 + input1
    elementwise ... via the configured descriptors", "requires Setup to have
    run with matching shapes", writes the output storage "(or the aliased
    input's storage, if in-place)", and raises a fatal error "if the
    underlying device call reports failure".  It returns the inputs and the
    outputs as the call leaves them. *)
Definition forward_impl (self : Add2CudaCudnn) (inputs outputs : Variables)
    : M (Variables * Variables) :=
  match inputs, outputs with
  | [x0; x1], [y] =>
      λ p,
        if configured (input_desc_ self) (shape x0) p
           && configured (output_desc_ self) (shape y) p
        then
          let sum := zip_with add (data x0) (data x1) in
          (Ok (if inplace_ self then [set_data sum x0; x1] else [x0; x1],
               [set_data sum y]), p)
        else (Throw device_error, p)
  | _, _ => throw arity_error
  end.

(** The gradient step for one input: nothing without [propagate_down],
    otherwise the output gradient is added to, or assigned to, the input's
    gradient storage. *)
Definition backward_input (dy : list T) (propagate acc : bool)
    (x : Variable_t T) : Variable_t T :=
  if propagate then
    set_grad (if acc then zip_with add (grad x) dy else dy) x
  else x.

(** Modelled from the spec: [backward_impl], declared in the header and
    defined outside it.  Backward, "for each input whose propagate_down flag
    is set, accumulates (or assigns, depending on accum) the output gradient
    directly into that input's gradient storage".  It returns the inputs as
    the call leaves them. *)
Definition backward_impl (self : Add2CudaCudnn) (inputs outputs : Variables)
    (propagate_down accum : list bool) : M Variables :=
  match inputs, outputs, propagate_down, accum with
  | [x0; x1], [y], [p0; p1], [a0; a1] =>
      mret [backward_input (grad y) p0 a0 x0;
            backward_input (grad y) p1 a1 x1]
  | _, _, _, _ => throw arity_error
  end.

(** ** Lifecycle of an instance *)

Context (Cuda_new : Cuda).

(** What the graph executor may call on a constructed instance. *)
Inductive call :=
  | call_setup (inputs outputs : Variables)
  | call_forward (inputs outputs : Variables)
  | call_backward (inputs outputs : Variables) (propagate_down accum : list bool)
  | call_name
  | call_allowed_array_classes.

(** The process state a call leaves behind, whether it returns or throws. *)
Definition run_call (self : Add2CudaCudnn) (c : call) (p : process) : process :=
  match c with
  | call_setup i o => (setup_impl self i o p).2
  | call_forward i o => (forward_impl self i o p).2
  | call_backward i o pd acc => (backward_impl self i o pd acc p).2
  | call_name => p
  | call_allowed_array_classes => (allowed_array_classes Cuda_new self p).2
  end.

Definition run_calls (self : Add2CudaCudnn) (cs : list call) (p : process)
    : process :=
  foldl (λ q c, run_call self c q) p cs.

End Add2.

(** A process that has not touched cuDNN yet and can hold [cap] descriptors. *)
Definition process_init (cap : nat) : process :=
  {| cudnn_descs := ∅; cudnn_next := 0; cudnn_capacity := cap;
     cudnn_log := []; singleton_Cuda := None |}.


(** ** Vocabulary of the properties *)

(** The instance and the process a successful construction yields. *)
Definition constructed (ctx : Context) (inplace : bool) (d : Z) (p : process)
    : Add2CudaCudnn :=
  {| ctx_ := ctx; inplace_ := inplace; device_ := d; cudnn_handle_ := None;
     input_desc_ := cudnn_next p; output_desc_ := S (cudnn_next p) |}.

Definition after_construction (c : nat) (p : process) : process :=
  {| cudnn_descs := <[S (cudnn_next p) := None]> (<[cudnn_next p := None]> (cudnn_descs p));
     cudnn_next := S (S (cudnn_next p));
     cudnn_capacity := c;
     cudnn_log := (cudnn_log p ++ [Created (cudnn_next p)]) ++ [Created (S (cudnn_next p))];
     singleton_Cuda := singleton_Cuda p |}.

(** The singleton [SingletonManager::get<Cuda>()] returns in process [p]. *)
Definition the_Cuda (Cuda_new : Cuda) (p : process) : Cuda :=
  default Cuda_new (singleton_Cuda p).

(** The process a destructor that released both descriptors leaves. *)
Definition after_destruction (self : Add2CudaCudnn) (p : process) : process :=
  {| cudnn_descs := delete (output_desc_ self) (delete (input_desc_ self) (cudnn_descs p));
     cudnn_next := cudnn_next p;
     cudnn_capacity := S (S (cudnn_capacity p));
     cudnn_log := (cudnn_log p ++ [Destroyed (input_desc_ self)])
                  ++ [Destroyed (output_desc_ self)];
     singleton_Cuda := singleton_Cuda p |}.

(** The process a Setup that configured both descriptors leaves. *)
Definition after_setup (self : Add2CudaCudnn) (sh : Shape_t) (p : process)
    : process :=
  {| cudnn_descs := <[output_desc_ self := Some sh]>
                      (<[input_desc_ self := Some sh]> (cudnn_descs p));
     cudnn_next := cudnn_next p;
     cudnn_capacity := cudnn_capacity p;
     cudnn_log := cudnn_log p;
     singleton_Cuda := singleton_Cuda p |}.

(** The instance's two descriptors are live and distinct. *)
Definition owns (self : Add2CudaCudnn) (p : process) : Prop :=
  is_Some (cudnn_descs p !! input_desc_ self)
  ∧ is_Some (cudnn_descs p !! output_desc_ self)
  ∧ input_desc_ self ≠ output_desc_ self.

(** Handles are handed out in increasing order: whatever is live or logged
    lies below the next handle. *)
Definition wf_process (p : process) : Prop :=
  (∀ h, is_Some (cudnn_descs p !! h) → (h < cudnn_next p)%nat)
  ∧ (∀ e, e ∈ cudnn_log p → (event_handle e < cudnn_next p)%nat).

(** What a call on an instance may change: the layouts of the instance's own
    descriptors and the singleton slot, nothing else. *)
Definition preserves (self : Add2CudaCudnn) (p q : process) : Prop :=
  cudnn_log q = cudnn_log p
  ∧ cudnn_capacity q = cudnn_capacity p
  ∧ cudnn_next q = cudnn_next p
  ∧ delete (input_desc_ self) (delete (output_desc_ self) (cudnn_descs q))
    = delete (input_desc_ self) (delete (output_desc_ self) (cudnn_descs p))
  ∧ (∀ h, is_Some (cudnn_descs p !! h) → is_Some (cudnn_descs q !! h)).

(** How often an event occurs in a log. *)
Definition occurrences (e : cudnn_event) (l : list cudnn_event) : nat :=
  length (filter (λ x, x = e) l).

(** A small concrete setting: integer tensors, shapes compatible when equal. *)
Definition same_shape (a b : Shape_t) : bool := bool_decide (a = b).
Definition Cuda_sample : Cuda := {| array_classes_ := ["CudaArray"] |}.
Definition vec2 (a b g0 g1 : Z) : Variable_t Z :=
  {| shape := [2%nat]; data := [a; b]; grad := [g0; g1] |}.
Definition self_sample (inplace : bool) : Add2CudaCudnn :=
  constructed {| device_id := "0" |} inplace 0 (process_init 2).

(** ** Device identifiers as text *)

(** The character of a decimal digit, the text of a digit sequence and the
    number it denotes. *)
Definition digit_char (d : nat) : ascii := ascii_of_nat (48 + d).

Fixpoint digits_string (ds : list nat) : string :=
  match ds with
  | [] => EmptyString
  | d :: r => String (digit_char d) (digits_string r)
  end.

Definition digits_value (ds : list nat) : Z :=
  foldl (λ acc d, 10 * acc + Z.of_nat d) 0 ds.

Definition all_digits (ds : list nat) : Prop := Forall (λ d, (d < 10)%nat) ds.

Fixpoint all_spaces (s : string) : bool :=
  match s with
  | EmptyString => true
  | String c r => isspace c && all_spaces r
  end.

Definition starts_with_digit (s : string) : bool :=
  match s with
  | String c _ => match digit_value c with Some _ => true | None => false end
  | EmptyString => false
  end.

(** An optional sign: [Some true] is minus, [Some false] is plus. *)
Definition sign_string (sg : option bool) : string :=
  match sg with
  | None => EmptyString
  | Some true => String "-"%char EmptyString
  | Some false => String "+"%char EmptyString
  end.

Definition signed (sg : option bool) (v : Z) : Z :=
  match sg with Some true => - v | _ => v end.

(** Text that cannot continue a number: after a sign anything but a digit;
    without a sign also no white space and no sign character (those would
    still be consumed). *)
Definition no_number (sg : option bool) (rest : string) : bool :=
  match rest with
  | EmptyString => true
  | String c _ =>
      negb (starts_with_digit rest)
      && match sg with
         | Some _ => true
         | None => negb (isspace c) && negb (Ascii.eqb c "-"%char)
                   && negb (Ascii.eqb c "+"%char)
         end
  end.

(** The words "a valid integer", taken literally: the whole text is an
    optional sign followed by decimal digits and nothing else, and the number
    fits an [int]. *)
Fixpoint only_digits (s : string) : bool :=
  match s with
  | EmptyString => true
  | String c r =>
      match digit_value c with Some _ => only_digits r | None => false end
  end.

Definition valid_integer_text (s : string) : bool :=
  let '(neg, body) := strip_sign s in
  match body with
  | EmptyString => false
  | String _ _ =>
      only_digits body
      && (let v := parse_digits body 0 in
          let v := if neg then - v else v in
          (INT_MIN <=? v) && (v <=? INT_MAX))
  end.

(** The process the first of the two descriptor creations leaves. *)
Definition after_first_creation (p : process) : process :=
  {| cudnn_descs := <[cudnn_next p := None]> (cudnn_descs p);
     cudnn_next := S (cudnn_next p);
     cudnn_capacity := 0;
     cudnn_log := cudnn_log p ++ [Created (cudnn_next p)];
     singleton_Cuda := singleton_Cuda p |}.

(** * Properties *)

(** ** The monad, step by step *)

Lemma bind_ok {A B} (m : M A) (k : A → M B) p a p' :
  m p = (Ok a, p') → (m ≫= k) p = k a p'.
Proof. intros H. unfold mbind, M_bind. by rewrite H. Qed.

Lemma bind_throw {A B} (m : M A) (k : A → M B) p e p' :
  m p = (Throw e, p') → (m ≫= k) p = (Throw e, p').
Proof. intros H. unfold mbind, M_bind. by rewrite H. Qed.

Lemma bind_inv_ok {A B} (m : M A) (k : A → M B) p b p'' :
  (m ≫= k) p = (Ok b, p'') → ∃ a p', m p = (Ok a, p') ∧ k a p' = (Ok b, p'').
Proof.
  unfold mbind, M_bind. destruct (m p) as [[a|e] p'] eqn:E; [eauto | discriminate].
Qed.

Lemma noexcept_ok {A} (m : M A) p a p' :
  m p = (Ok a, p') → noexcept m p = (Ok a, p').
Proof. intros H. unfold noexcept. by rewrite H. Qed.

Lemma noexcept_throw {A} (m : M A) p e p' :
  m p = (Throw e, p') → noexcept m p = (Throw std_terminate, p').
Proof. intros H. unfold noexcept. by rewrite H. Qed.

Lemma noexcept_state {A} (m : M A) p : (noexcept m p).2 = (m p).2.
Proof. unfold noexcept. by destruct (m p) as [[a|e] q]. Qed.

(** ** The descriptor API *)

Lemma create_check_ok p c :
  cudnn_capacity p = S c →
  NBLA_CUDNN_CHECK cudnnCreateTensorDescriptor p
  = (Ok (cudnn_next p),
     {| cudnn_descs := <[cudnn_next p := None]> (cudnn_descs p);
        cudnn_next := S (cudnn_next p);
        cudnn_capacity := c;
        cudnn_log := cudnn_log p ++ [Created (cudnn_next p)];
        singleton_Cuda := singleton_Cuda p |}).
Proof.
  intros H. unfold NBLA_CUDNN_CHECK, cudnnCreateTensorDescriptor. by rewrite H.
Qed.

Lemma create_check_full p :
  cudnn_capacity p = 0%nat →
  NBLA_CUDNN_CHECK cudnnCreateTensorDescriptor p
  = (Throw (cudnn_error CUDNN_STATUS_ALLOC_FAILED), p).
Proof.
  intros H. unfold NBLA_CUDNN_CHECK, cudnnCreateTensorDescriptor. by rewrite H.
Qed.

Lemma create_status p :
  (cudnnCreateTensorDescriptor p).1.1
  = match cudnn_capacity p with
    | O => CUDNN_STATUS_ALLOC_FAILED
    | S _ => CUDNN_STATUS_SUCCESS
    end.
Proof. unfold cudnnCreateTensorDescriptor. by destruct (cudnn_capacity p). Qed.

Lemma destroy_check_live h p :
  is_Some (cudnn_descs p !! h) →
  NBLA_CUDNN_CHECK (status_only (cudnnDestroyTensorDescriptor h)) p
  = (Ok (),
     {| cudnn_descs := delete h (cudnn_descs p);
        cudnn_next := cudnn_next p;
        cudnn_capacity := S (cudnn_capacity p);
        cudnn_log := cudnn_log p ++ [Destroyed h];
        singleton_Cuda := singleton_Cuda p |}).
Proof.
  intros [d H].
  unfold NBLA_CUDNN_CHECK, status_only, cudnnDestroyTensorDescriptor.
  by rewrite H.
Qed.

Lemma destroy_check_dead h p :
  cudnn_descs p !! h = None →
  NBLA_CUDNN_CHECK (status_only (cudnnDestroyTensorDescriptor h)) p
  = (Throw (cudnn_error CUDNN_STATUS_BAD_PARAM), p).
Proof.
  intros H.
  unfold NBLA_CUDNN_CHECK, status_only, cudnnDestroyTensorDescriptor.
  by rewrite H.
Qed.

Lemma set_check_live h sh p :
  is_Some (cudnn_descs p !! h) →
  NBLA_CUDNN_CHECK (status_only (cudnnSetTensorDescriptor h sh)) p
  = (Ok (),
     {| cudnn_descs := <[h := Some sh]> (cudnn_descs p);
        cudnn_next := cudnn_next p;
        cudnn_capacity := cudnn_capacity p;
        cudnn_log := cudnn_log p;
        singleton_Cuda := singleton_Cuda p |}).
Proof.
  intros [d H].
  unfold NBLA_CUDNN_CHECK, status_only, cudnnSetTensorDescriptor.
  by rewrite H.
Qed.

Lemma set_check_dead h sh p :
  cudnn_descs p !! h = None →
  NBLA_CUDNN_CHECK (status_only (cudnnSetTensorDescriptor h sh)) p
  = (Throw (cudnn_error CUDNN_STATUS_BAD_PARAM), p).
Proof.
  intros H.
  unfold NBLA_CUDNN_CHECK, status_only, cudnnSetTensorDescriptor.
  by rewrite H.
Qed.

(** ** Construction *)

Lemma new_ok ctx inplace p d c :
  stoi (device_id ctx) = Ok d →
  cudnn_capacity p = S (S c) →
  Add2CudaCudnn_new ctx inplace p
  = (Ok (constructed ctx inplace d p), after_construction c p).
Proof.
  intros Hd Hc. unfold Add2CudaCudnn_new, Add2Cuda_new.
  erewrite bind_ok; [| reflexivity].
  erewrite bind_ok; [| unfold lift_result; by rewrite Hd].
  erewrite bind_ok; [| by apply create_check_ok].
  erewrite bind_ok; [| by apply create_check_ok].
  reflexivity.
Qed.

Lemma new_bad_device_id ctx inplace p e :
  stoi (device_id ctx) = Throw e →
  Add2CudaCudnn_new ctx inplace p = (Throw e, p).
Proof.
  intros Hd. unfold Add2CudaCudnn_new, Add2Cuda_new.
  erewrite bind_ok; [| reflexivity].
  erewrite bind_throw; [reflexivity |]. unfold lift_result. by rewrite Hd.
Qed.

Lemma new_no_room ctx inplace p d :
  stoi (device_id ctx) = Ok d →
  cudnn_capacity p = 0%nat →
  Add2CudaCudnn_new ctx inplace p
  = (Throw (cudnn_error CUDNN_STATUS_ALLOC_FAILED), p).
Proof.
  intros Hd Hc. unfold Add2CudaCudnn_new, Add2Cuda_new.
  erewrite bind_ok; [| reflexivity].
  erewrite bind_ok; [| unfold lift_result; by rewrite Hd].
  erewrite bind_throw; [reflexivity |]. by apply create_check_full.
Qed.

(** When only one descriptor fits, the first one is created and stays live:
    the constructor throws from its body, so the destructor never runs. *)
Lemma new_room_for_one ctx inplace p d :
  stoi (device_id ctx) = Ok d →
  cudnn_capacity p = 1%nat →
  Add2CudaCudnn_new ctx inplace p
  = (Throw (cudnn_error CUDNN_STATUS_ALLOC_FAILED),
     {| cudnn_descs := <[cudnn_next p := None]> (cudnn_descs p);
        cudnn_next := S (cudnn_next p);
        cudnn_capacity := 0;
        cudnn_log := cudnn_log p ++ [Created (cudnn_next p)];
        singleton_Cuda := singleton_Cuda p |}).
Proof.
  intros Hd Hc. unfold Add2CudaCudnn_new, Add2Cuda_new.
  erewrite bind_ok; [| reflexivity].
  erewrite bind_ok; [| unfold lift_result; by rewrite Hd].
  erewrite bind_ok; [| by apply create_check_ok].
  erewrite bind_throw; [reflexivity |]. by apply create_check_full.
Qed.

Lemma new_inv ctx inplace p self p' :
  Add2CudaCudnn_new ctx inplace p = (Ok self, p') →
  ∃ d c, stoi (device_id ctx) = Ok d ∧ cudnn_capacity p = S (S c)
         ∧ self = constructed ctx inplace d p ∧ p' = after_construction c p.
Proof.
  intros H.
  destruct (stoi (device_id ctx)) as [d|e] eqn:Hd.
  - destruct (cudnn_capacity p) as [|[|c]] eqn:Hc.
    + rewrite (new_no_room _ _ _ d) in H by done. discriminate.
    + rewrite (new_room_for_one _ _ _ d) in H by done. discriminate.
    + rewrite (new_ok _ _ _ d c) in H by done.
      injection H as <- <-. by exists d, c.
  - rewrite (new_bad_device_id _ _ _ e) in H by done. discriminate.
Qed.

(** [std::stoi] converts a leading number and ignores what follows it, so an
    identifier such as "1x" is a device number for the constructor. *)
Example stoi_trailing_text : stoi "1x" = Ok 1.
Proof. reflexivity. Qed.

Example stoi_samples :
  stoi "  -12" = Ok (-12) ∧ stoi "+7" = Ok 7
  ∧ stoi "" = Throw std_invalid_argument
  ∧ stoi "- 7" = Throw std_invalid_argument
  ∧ stoi "2147483648" = Throw std_out_of_range
  ∧ stoi "-2147483648" = Ok (-2147483648).
Proof. repeat split. Qed.

(** ** name and allowed_array_classes *)

(** C9: [name()] is the string "Add2CudaCudnn" for every instance, whatever
    context and in-place flag it was built with, and so the same on every
    call. *)
Theorem name_is_Add2CudaCudnn :
  (∀ self, name self = "Add2CudaCudnn")
  ∧ (∀ ctx inplace d p,
       name (constructed ctx inplace d p) = "Add2CudaCudnn")
  ∧ (∀ self1 self2, name self1 = name self2).
Proof. by repeat split. Qed.

Lemma get_Cuda_eq Cuda_new p :
  SingletonManager_get_Cuda Cuda_new p
  = (Ok (the_Cuda Cuda_new p),
     {| cudnn_descs := cudnn_descs p;
        cudnn_next := cudnn_next p;
        cudnn_capacity := cudnn_capacity p;
        cudnn_log := cudnn_log p;
        singleton_Cuda := Some (the_Cuda Cuda_new p) |}).
Proof.
  unfold SingletonManager_get_Cuda, the_Cuda.
  destruct p as [ds n c l [cu|]]; reflexivity.
Qed.

Lemma allowed_array_classes_eq Cuda_new self p :
  allowed_array_classes Cuda_new self p
  = (Ok (array_classes (the_Cuda Cuda_new p)),
     {| cudnn_descs := cudnn_descs p;
        cudnn_next := cudnn_next p;
        cudnn_capacity := cudnn_capacity p;
        cudnn_log := cudnn_log p;
        singleton_Cuda := Some (the_Cuda Cuda_new p) |}).
Proof.
  unfold allowed_array_classes.
  erewrite bind_ok; [| apply get_Cuda_eq]. reflexivity.
Qed.

(** C10: [allowed_array_classes()] returns the array classes of the
    process-wide [Cuda] singleton; the answer does not depend on the instance
    asked, so two instances report the same list, also when asked one after
    the other; the call leaves the descriptor table, which holds the
    descriptors instances own, as it was. *)
Theorem allowed_array_classes_of_singleton Cuda_new self1 self2 p :
  let r := allowed_array_classes Cuda_new self1 p in
  r.1 = Ok (array_classes (the_Cuda Cuda_new p))
  ∧ singleton_Cuda r.2 = Some (the_Cuda Cuda_new p)
  ∧ allowed_array_classes Cuda_new self2 p = r
  ∧ (allowed_array_classes Cuda_new self2 r.2).1 = r.1
  ∧ cudnn_descs r.2 = cudnn_descs p
  ∧ cudnn_log r.2 = cudnn_log p
  ∧ cudnn_capacity r.2 = cudnn_capacity p
  ∧ cudnn_next r.2 = cudnn_next p.
Proof.
  intros r. subst r. rewrite !allowed_array_classes_eq. simpl.
  repeat split; reflexivity.
Qed.

(** ** Ownership of the descriptors *)

Lemma wf_process_init cap : wf_process (process_init cap).
Proof.
  split.
  - intros h [d Hd]. simpl in Hd. by rewrite lookup_empty in Hd.
  - intros e He. simpl in He. by apply elem_of_nil in He.
Qed.

(** [wf_process] is an invariant of everything the class does. *)
Lemma check_state {A} (call : process → (cudnnStatus_t * A) * process) p :
  (NBLA_CUDNN_CHECK call p).2 = (call p).2.
Proof.
  unfold NBLA_CUDNN_CHECK. by destruct (call p) as [[[] a] q].
Qed.

Lemma create_wf p :
  wf_process p → wf_process (cudnnCreateTensorDescriptor p).2.
Proof.
  intros [Hlive Hlog]. unfold cudnnCreateTensorDescriptor.
  destruct (cudnn_capacity p); [done |]. split; simpl.
  - intros h. rewrite lookup_insert. case_decide; [lia |].
    intros Hs. apply Hlive in Hs. lia.
  - intros e [He | He]%elem_of_app.
    + apply Hlog in He. lia.
    + apply list_elem_of_singleton in He as ->. simpl. lia.
Qed.

Lemma destroy_wf h p :
  wf_process p → wf_process (cudnnDestroyTensorDescriptor h p).2.
Proof.
  intros [Hlive Hlog]. unfold cudnnDestroyTensorDescriptor.
  destruct (cudnn_descs p !! h) as [d|] eqn:E; [| done]. split; simpl.
  - intros k. rewrite lookup_delete. case_decide; [by intros [? ?] | apply Hlive].
  - intros e [He | He]%elem_of_app.
    + by apply Hlog.
    + apply list_elem_of_singleton in He as ->. simpl. apply Hlive. eauto.
Qed.

Lemma set_wf h sh p :
  wf_process p → wf_process (cudnnSetTensorDescriptor h sh p).2.
Proof.
  intros [Hlive Hlog]. unfold cudnnSetTensorDescriptor.
  destruct (cudnn_descs p !! h) as [d|] eqn:E; [| done]. split; simpl.
  - intros k. rewrite lookup_insert. case_decide; [| apply Hlive].
    intros _. subst k. apply Hlive. eauto.
  - exact Hlog.
Qed.

Lemma status_only_state (call : process → cudnnStatus_t * process) p :
  (status_only call p).2 = (call p).2.
Proof. unfold status_only. by destruct (call p). Qed.

Lemma bind_wf {A B} (m : M A) (k : A → M B) p :
  wf_process (m p).2 →
  (∀ a q, wf_process q → wf_process (k a q).2) →
  wf_process ((m ≫= k) p).2.
Proof.
  intros Hm Hk. unfold mbind, M_bind.
  destruct (m p) as [[a|e] q]; simpl in *; auto.
Qed.

Lemma new_wf ctx inplace p :
  wf_process p → wf_process (Add2CudaCudnn_new ctx inplace p).2.
Proof.
  intros Hwf. unfold Add2CudaCudnn_new.
  apply bind_wf; [done |]. intros base q Hq.
  apply bind_wf; [done |]. intros device q1 Hq1.
  apply bind_wf; [rewrite check_state; by apply create_wf |]. intros i q2 Hq2.
  apply bind_wf; [rewrite check_state; by apply create_wf |]. by intros o q3 Hq3.
Qed.

Lemma delete_wf self p :
  wf_process p → wf_process (Add2CudaCudnn_delete self p).2.
Proof.
  intros Hwf. unfold Add2CudaCudnn_delete. rewrite noexcept_state.
  apply bind_wf.
  - rewrite check_state, status_only_state. by apply destroy_wf.
  - intros _ q Hq. rewrite check_state, status_only_state. by apply destroy_wf.
Qed.

Lemma preserves_refl self p : preserves self p p.
Proof. by split_and!. Qed.

Lemma preserves_trans self p q r :
  preserves self p q → preserves self q r → preserves self p r.
Proof.
  intros (Hl & Hc & Hn & Hd & Hs) (Hl' & Hc' & Hn' & Hd' & Hs').
  split_and!; try congruence. auto.
Qed.

Lemma preserves_owns self p q : preserves self p q → owns self p → owns self q.
Proof. intros (_ & _ & _ & _ & Hs) (Hi & Ho & Hne). split_and!; auto. Qed.

Lemma delete_own_insert (i o h : nat) (v : option Shape_t)
    (m : gmap nat (option Shape_t)) :
  h = i ∨ h = o →
  delete i (delete o (<[h := v]> m)) = delete i (delete o m).
Proof.
  intros Hh. apply map_eq. intros k.
  rewrite !lookup_delete, lookup_insert.
  repeat case_decide; destruct Hh; congruence.
Qed.

Lemma set_check_preserves self h sh p :
  h = input_desc_ self ∨ h = output_desc_ self →
  preserves self p
    (NBLA_CUDNN_CHECK (status_only (cudnnSetTensorDescriptor h sh)) p).2.
Proof.
  intros Hh. destruct (cudnn_descs p !! h) as [d|] eqn:E.
  - rewrite set_check_live by eauto. simpl.
    split_and!; try reflexivity; [by apply delete_own_insert |].
    intros k Hk. simpl. rewrite lookup_insert. by case_decide.
  - rewrite set_check_dead by done. apply preserves_refl.
Qed.

Lemma bind_preserves {A B} self (m : M A) (k : A → M B) p :
  preserves self p (m p).2 →
  (∀ a q, preserves self q (k a q).2) →
  preserves self p ((m ≫= k) p).2.
Proof.
  intros Hm Hk. unfold mbind, M_bind.
  destruct (m p) as [[a|e] p'] eqn:E; simpl in *; [| done].
  eapply preserves_trans; [exact Hm | apply Hk].
Qed.

Section Lifecycle.
Context {T : Type} (add : T → T → T) (uninit : T).
Context (compatible : Shape_t → Shape_t → bool).
Context (Cuda_new : Cuda).

Lemma setup_preserves self (inputs outputs : list (Variable_t T)) p :
  preserves self p (setup_impl uninit compatible self inputs outputs p).2.
Proof.
  unfold setup_impl.
  destruct inputs as [|x0 [|x1 [|? ?]]]; try apply preserves_refl.
  destruct outputs as [|y [|? ?]]; try apply preserves_refl.
  destruct (compatible (shape x0) (shape x1)); [| apply preserves_refl].
  apply bind_preserves; [apply set_check_preserves; by left |].
  intros _ q. apply bind_preserves; [apply set_check_preserves; by right |].
  intros _ r. apply preserves_refl.
Qed.

Lemma forward_state self (inputs outputs : list (Variable_t T)) p :
  (forward_impl add self inputs outputs p).2 = p.
Proof.
  unfold forward_impl.
  destruct inputs as [|x0 [|x1 [|? ?]]]; try reflexivity.
  destruct outputs as [|y [|? ?]]; try reflexivity.
  by destruct (_ && _).
Qed.

Lemma backward_state self (inputs outputs : list (Variable_t T)) pd acc p :
  (backward_impl add self inputs outputs pd acc p).2 = p.
Proof.
  unfold backward_impl.
  destruct inputs as [|x0 [|x1 [|? ?]]]; try reflexivity.
  destruct outputs as [|y [|? ?]]; try reflexivity.
  destruct pd as [|p0 [|p1 [|? ?]]]; try reflexivity.
  destruct acc as [|a0 [|a1 [|? ?]]]; reflexivity.
Qed.

Lemma setup_wf self (inputs outputs : list (Variable_t T)) p :
  wf_process p →
  wf_process (setup_impl uninit compatible self inputs outputs p).2.
Proof.
  intros Hwf. unfold setup_impl.
  destruct inputs as [|x0 [|x1 [|? ?]]]; try done.
  destruct outputs as [|y [|? ?]]; try done.
  destruct (compatible (shape x0) (shape x1)); [| done].
  apply bind_wf.
  - rewrite check_state, status_only_state. by apply set_wf.
  - intros _ q Hq. apply bind_wf; [| done].
    rewrite check_state, status_only_state. by apply set_wf.
Qed.

Lemma run_calls_wf self (cs : list (call (T := T))) p :
  wf_process p →
  wf_process (run_calls add uninit compatible Cuda_new self cs p).
Proof.
  unfold run_calls. revert p.
  induction cs as [|c cs IH]; intros p Hwf; simpl; [done |].
  apply IH. destruct c; simpl.
  - by apply setup_wf.
  - by rewrite forward_state.
  - by rewrite backward_state.
  - done.
  - by rewrite allowed_array_classes_eq.
Qed.

Lemma run_call_preserves self (c : call (T := T)) p :
  preserves self p (run_call add uninit compatible Cuda_new self c p).
Proof.
  destruct c; simpl.
  - apply setup_preserves.
  - rewrite forward_state. apply preserves_refl.
  - rewrite backward_state. apply preserves_refl.
  - apply preserves_refl.
  - rewrite allowed_array_classes_eq. by split_and!.
Qed.

Lemma run_calls_preserves self (cs : list (call (T := T))) p :
  preserves self p (run_calls add uninit compatible Cuda_new self cs p).
Proof.
  unfold run_calls. revert p.
  induction cs as [|c cs IH]; intros p; simpl.
  - apply preserves_refl.
  - eapply preserves_trans; [apply run_call_preserves | apply IH].
Qed.

End Lifecycle.

(** ** Destruction *)

Lemma delete_owned self p :
  owns self p → Add2CudaCudnn_delete self p = (Ok (), after_destruction self p).
Proof.
  intros (Hi & Ho & Hne). unfold Add2CudaCudnn_delete. apply noexcept_ok.
  erewrite bind_ok; [| by apply destroy_check_live].
  rewrite destroy_check_live; [reflexivity |].
  simpl. by rewrite lookup_delete_ne.
Qed.

(** A destructor that meets a descriptor that is no longer live ends the
    process, and leaves the other descriptor alone. *)
Lemma delete_not_owned self p :
  cudnn_descs p !! input_desc_ self = None →
  Add2CudaCudnn_delete self p = (Throw std_terminate, p).
Proof.
  intros Hi. unfold Add2CudaCudnn_delete.
  eapply noexcept_throw. apply bind_throw. by apply destroy_check_dead.
Qed.

Lemma constructed_owns ctx inplace d c p :
  owns (constructed ctx inplace d p) (after_construction c p).
Proof.
  unfold owns, constructed, after_construction. simpl. split_and!.
  - rewrite lookup_insert_ne by lia. rewrite lookup_insert_eq. eauto.
  - rewrite lookup_insert_eq. eauto.
  - lia.
Qed.

(** C7: on an instance whose two descriptors are live, the destructor returns
    without throwing and has released both descriptors, and only them. *)
Theorem delete_releases_both self p :
  owns self p →
  ∃ p', Add2CudaCudnn_delete self p = (Ok (), p')
        ∧ cudnn_descs p' !! input_desc_ self = None
        ∧ cudnn_descs p' !! output_desc_ self = None
        ∧ (∀ h, h ≠ input_desc_ self → h ≠ output_desc_ self →
                cudnn_descs p' !! h = cudnn_descs p !! h)
        ∧ cudnn_log p'
          = cudnn_log p ++ [Destroyed (input_desc_ self);
                            Destroyed (output_desc_ self)].
Proof.
  intros Hown. exists (after_destruction self p).
  split; [by apply delete_owned |].
  destruct Hown as (_ & _ & Hne). simpl. split_and!.
  - rewrite lookup_delete_ne by done. apply lookup_delete_eq.
  - apply lookup_delete_eq.
  - intros h Hi Ho. by rewrite !lookup_delete_ne.
  - by rewrite <- app_assoc.
Qed.

Lemma delete_releases_both_witness :
  let self := constructed {| device_id := "0" |} false 0 (process_init 2) in
  let p := after_construction 0 (process_init 2) in
  Add2CudaCudnn_new {| device_id := "0" |} false (process_init 2) = (Ok self, p)
  ∧ ∃ p', Add2CudaCudnn_delete self p = (Ok (), p')
          ∧ cudnn_descs p' !! input_desc_ self = None
          ∧ cudnn_descs p' !! output_desc_ self = None
          ∧ (∀ h, h ≠ input_desc_ self → h ≠ output_desc_ self →
                  cudnn_descs p' !! h = cudnn_descs p !! h)
          ∧ cudnn_log p'
            = cudnn_log p ++ [Destroyed (input_desc_ self);
                              Destroyed (output_desc_ self)].
Proof.
  intros self p. split; [reflexivity |].
  apply (delete_releases_both self p).
  unfold owns. split_and!; [by eexists | by eexists | discriminate].
Defined.

(** ** The whole lifecycle *)

Lemma occurrences_app e l1 l2 :
  occurrences e (l1 ++ l2) = (occurrences e l1 + occurrences e l2)%nat.
Proof. unfold occurrences. by rewrite filter_app, length_app. Qed.

Lemma occurrences_absent e l : e ∉ l → occurrences e l = 0%nat.
Proof.
  unfold occurrences. induction l as [|x l IH]; intros Hnot; [done |].
  apply not_elem_of_cons in Hnot as [Hne Hl].
  rewrite filter_cons_False by congruence. auto.
Qed.

Lemma wf_fresh_event p e :
  wf_process p → (cudnn_next p ≤ event_handle e)%nat → e ∉ cudnn_log p.
Proof. intros [_ Hlog] Hle Hin. apply Hlog in Hin. lia. Qed.

Lemma wf_fresh_handle p h :
  wf_process p → (cudnn_next p ≤ h)%nat → cudnn_descs p !! h = None.
Proof.
  intros [Hlive _] Hle. apply eq_None_not_Some. intros Hs.
  apply Hlive in Hs. lia.
Qed.

Section Lifecycle_paired.
Context {T : Type} (add : T → T → T) (uninit : T).
Context (compatible : Shape_t → Shape_t → bool).
Context (Cuda_new : Cuda).

(** C6: for an instance built in a process [p], whatever calls are made on
    it (none included), the destructor then returns normally; over the whole
    life the log gains one creation and one destruction for each of the two
    distinct descriptors, each event occurring exactly once in the log; and
    the descriptor table and the library's capacity are back to what they
    were before construction. *)
Theorem descriptors_created_and_destroyed_once
    ctx inplace p self p1 (cs : list (call (T := T))) :
  wf_process p →
  Add2CudaCudnn_new ctx inplace p = (Ok self, p1) →
  let i := input_desc_ self in
  let o := output_desc_ self in
  ∃ p3,
    Add2CudaCudnn_delete self
      (run_calls add uninit compatible Cuda_new self cs p1) = (Ok (), p3)
    ∧ i ≠ o
    ∧ cudnn_log p3
      = cudnn_log p ++ [Created i; Created o; Destroyed i; Destroyed o]
    ∧ occurrences (Created i) (cudnn_log p3) = 1%nat
    ∧ occurrences (Created o) (cudnn_log p3) = 1%nat
    ∧ occurrences (Destroyed i) (cudnn_log p3) = 1%nat
    ∧ occurrences (Destroyed o) (cudnn_log p3) = 1%nat
    ∧ cudnn_descs p3 = cudnn_descs p
    ∧ cudnn_capacity p3 = cudnn_capacity p.
Proof.
  intros Hwf Hnew i o.
  apply new_inv in Hnew as (d & c & Hd & Hc & -> & ->).
  set (self := constructed ctx inplace d p) in *.
  set (p1 := after_construction c p).
  set (p2 := run_calls add uninit compatible Cuda_new self cs p1).
  assert (Hpres : preserves self p1 p2) by apply run_calls_preserves.
  assert (Hown : owns self p2).
  { eapply preserves_owns; [exact Hpres | apply constructed_owns]. }
  destruct Hpres as (Hlog & Hcap & _ & Hdel & _).
  assert (Hne : i ≠ o) by (subst i o; simpl; lia).
  assert (Hlog3 : cudnn_log (after_destruction self p2)
                  = cudnn_log p ++ [Created i; Created o; Destroyed i; Destroyed o]).
  { simpl. rewrite Hlog. simpl. by rewrite <- !app_assoc. }
  exists (after_destruction self p2).
  split; [by apply delete_owned |].
  split; [exact Hne |].
  split; [exact Hlog3 |].
  rewrite Hlog3, !occurrences_app.
  rewrite !(occurrences_absent _ (cudnn_log p))
    by (apply wf_fresh_event; [done | subst i o; simpl; lia]).
  unfold occurrences. simpl.
  split_and!.
  - rewrite filter_cons_True, !filter_cons_False by congruence. done.
  - rewrite filter_cons_False, filter_cons_True, !filter_cons_False by congruence.
    done.
  - rewrite !filter_cons_False, filter_cons_True, filter_cons_False by congruence.
    done.
  - rewrite !filter_cons_False, filter_cons_True by congruence. done.
  - change (delete o (delete i (cudnn_descs p2)) = cudnn_descs p).
    rewrite (delete_delete _ o). subst i o. rewrite Hdel. simpl.
    apply map_eq. intros h.
    rewrite !lookup_delete, !lookup_insert.
    repeat case_decide; try done; symmetry;
      (apply wf_fresh_handle; [done | lia]).
  - rewrite Hcap. simpl. lia.
Qed.

End Lifecycle_paired.

Lemma descriptors_created_and_destroyed_once_witness :
  let self := self_sample false in
  let i := input_desc_ self in
  let o := output_desc_ self in
  ∃ p3,
    Add2CudaCudnn_delete self
      (run_calls Z.add 0 same_shape Cuda_sample self
         [call_setup [vec2 1 2 0 0; vec2 3 4 0 0] [vec2 0 0 0 0];
          call_allowed_array_classes]
         (after_construction 0 (process_init 2))) = (Ok (), p3)
    ∧ i ≠ o
    ∧ cudnn_log p3
      = cudnn_log (process_init 2)
        ++ [Created i; Created o; Destroyed i; Destroyed o]
    ∧ occurrences (Created i) (cudnn_log p3) = 1%nat
    ∧ occurrences (Created o) (cudnn_log p3) = 1%nat
    ∧ occurrences (Destroyed i) (cudnn_log p3) = 1%nat
    ∧ occurrences (Destroyed o) (cudnn_log p3) = 1%nat
    ∧ cudnn_descs p3 = cudnn_descs (process_init 2)
    ∧ cudnn_capacity p3 = cudnn_capacity (process_init 2).
Proof.
  apply (descriptors_created_and_destroyed_once Z.add 0 same_shape Cuda_sample
           {| device_id := "0" |} false (process_init 2)).
  - apply wf_process_init.
  - reflexivity.
Defined.

(** ** Setup *)

Section Setup.
Context {T : Type} (uninit : T).
Context (compatible : Shape_t → Shape_t → bool).

Lemma setup_ok self (x0 x1 y : Variable_t T) p :
  is_Some (cudnn_descs p !! input_desc_ self) →
  is_Some (cudnn_descs p !! output_desc_ self) →
  compatible (shape x0) (shape x1) = true →
  setup_impl uninit compatible self [x0; x1] [y] p
  = (Ok [setup_output uninit self x0 y], after_setup self (shape x0) p).
Proof.
  intros Hi Ho Hc. unfold setup_impl. rewrite Hc.
  erewrite bind_ok; [| by apply set_check_live].
  erewrite bind_ok; [reflexivity |].
  rewrite set_check_live; [reflexivity |].
  simpl. rewrite lookup_insert. by case_decide.
Qed.

Lemma setup_mismatch self (x0 x1 y : Variable_t T) p :
  compatible (shape x0) (shape x1) = false →
  setup_impl uninit compatible self [x0; x1] [y] p = (Throw shape_error, p).
Proof. intros Hc. unfold setup_impl. by rewrite Hc. Qed.

Lemma setup_inv self (x0 x1 y : Variable_t T) p outs p' :
  setup_impl uninit compatible self [x0; x1] [y] p = (Ok outs, p') →
  compatible (shape x0) (shape x1) = true
  ∧ outs = [setup_output uninit self x0 y]
  ∧ p' = after_setup self (shape x0) p.
Proof.
  intros H.
  destruct (compatible (shape x0) (shape x1)) eqn:Hc;
    [| by rewrite setup_mismatch in H].
  destruct (cudnn_descs p !! input_desc_ self) as [di|] eqn:Hi.
  - destruct (cudnn_descs p !! output_desc_ self) as [do|] eqn:Ho.
    + rewrite setup_ok in H by eauto. by injection H as <- <-.
    + exfalso. unfold setup_impl in H. rewrite Hc in H.
      erewrite bind_ok in H; [| apply set_check_live; eauto].
      erewrite bind_throw in H; [discriminate |].
      apply set_check_dead. simpl. rewrite lookup_insert_ne; [done |].
      intros Heq. rewrite Heq in Hi. congruence.
  - exfalso. unfold setup_impl in H. rewrite Hc in H.
    erewrite bind_throw in H; [discriminate |]. by apply set_check_dead.
Qed.

Lemma after_setup_configured self sh p :
  cudnn_descs (after_setup self sh p) !! input_desc_ self = Some (Some sh)
  ∧ cudnn_descs (after_setup self sh p) !! output_desc_ self = Some (Some sh).
Proof.
  simpl. split.
  - rewrite lookup_insert. case_decide; [done |]. apply lookup_insert_eq.
  - apply lookup_insert_eq.
Qed.

(** C8: on an instance that owns its descriptors, Setup with inputs whose
    shapes are not compatible throws the shape error and leaves the process
    exactly as it was; a Setup that follows with compatible shapes returns
    normally, and the instance still owns its descriptors. *)
Theorem setup_mismatch_recoverable self (x0 x1 y : Variable_t T) p :
  owns self p →
  compatible (shape x0) (shape x1) = false →
  setup_impl uninit compatible self [x0; x1] [y] p = (Throw shape_error, p)
  ∧ ∀ x0' x1' y' : Variable_t T,
      compatible (shape x0') (shape x1') = true →
      ∃ outs p',
        setup_impl uninit compatible self [x0'; x1'] [y']
          (setup_impl uninit compatible self [x0; x1] [y] p).2
        = (Ok outs, p')
        ∧ owns self p'.
Proof.
  intros Hown Hbad. split; [by apply setup_mismatch |].
  intros x0' x1' y' Hgood. rewrite (setup_mismatch self x0 x1 y p) by done.
  simpl.
  destruct Hown as (Hi & Ho & Hne).
  eexists _, _. split; [by apply setup_ok |].
  destruct (after_setup_configured self (shape x0') p) as [Ei Eo].
  split_and!; [by rewrite Ei | by rewrite Eo | done].
Qed.

End Setup.

Lemma setup_mismatch_recoverable_witness :
  let self := self_sample false in
  let p := after_construction 0 (process_init 2) in
  let bad := {| shape := [3%nat]; data := [1; 2; 3]; grad := [0; 0; 0] |} in
  setup_impl 0 same_shape self [vec2 1 2 0 0; bad] [vec2 0 0 0 0] p
  = (Throw shape_error, p)
  ∧ ∀ x0' x1' y' : Variable_t Z,
      same_shape (shape x0') (shape x1') = true →
      ∃ outs p',
        setup_impl 0 same_shape self [x0'; x1'] [y']
          (setup_impl 0 same_shape self [vec2 1 2 0 0; bad] [vec2 0 0 0 0] p).2
        = (Ok outs, p')
        ∧ owns self p'.
Proof.
  intros self p bad.
  apply (setup_mismatch_recoverable 0 same_shape self (vec2 1 2 0 0) bad
           (vec2 0 0 0 0) p).
  - unfold owns. split_and!; [by eexists | by eexists | discriminate].
  - reflexivity.
Defined.

(** ** Forward *)

Section Forward.
Context {T : Type} (add : T → T → T) (uninit : T).
Context (compatible : Shape_t → Shape_t → bool).

Lemma forward_configured self (x0 x1 y : Variable_t T) p :
  cudnn_descs p !! input_desc_ self = Some (Some (shape x0)) →
  cudnn_descs p !! output_desc_ self = Some (Some (shape y)) →
  forward_impl add self [x0; x1] [y] p
  = (Ok (if inplace_ self
         then [set_data (zip_with add (data x0) (data x1)) x0; x1]
         else [x0; x1],
         [set_data (zip_with add (data x0) (data x1)) y]), p).
Proof.
  intros Hi Ho. unfold forward_impl, configured.
  by rewrite !bool_decide_eq_true_2.
Qed.

(** Without a Setup the descriptors carry no layout and the call fails. *)
Lemma forward_unconfigured self (x0 x1 y : Variable_t T) p :
  cudnn_descs p !! input_desc_ self = Some None →
  forward_impl add self [x0; x1] [y] p = (Throw device_error, p).
Proof.
  intros Hi. unfold forward_impl, configured.
  rewrite Hi. by rewrite bool_decide_eq_false_2.
Qed.

(** C1: after a Setup that returned normally on two inputs of equal shape,
    Forward returns normally and the output tensor holds the elementwise sum
    of the two inputs' data: it has the inputs' shape and size, and its
    element at every position is [add] of the inputs' elements there.  In
    in-place mode input 0's storage holds the same sum. *)
Theorem forward_writes_elementwise_sum self (x0 x1 y : Variable_t T) p outs p' :
  shape x0 = shape x1 →
  well_sized x0 → well_sized x1 →
  setup_impl uninit compatible self [x0; x1] [y] p = (Ok outs, p') →
  ∃ ins' y',
    forward_impl add self [x0; x1] outs p' = (Ok (ins', [y']), p')
    ∧ data y' = zip_with add (data x0) (data x1)
    ∧ shape y' = shape x0
    ∧ length (data y') = shape_size (shape x0)
    ∧ (∀ k a b, data x0 !! k = Some a → data x1 !! k = Some b →
                data y' !! k = Some (add a b))
    ∧ ins' = if inplace_ self then [set_data (data y') x0; x1] else [x0; x1].
Proof.
  intros Hsh H0 H1 Hsetup.
  apply setup_inv in Hsetup as (_ & -> & ->).
  destruct (after_setup_configured self (shape x0) p) as [Ei Eo].
  eexists _, _. split; [by apply forward_configured |].
  simpl. split_and!; try done.
  - rewrite length_zip_with. unfold well_sized in *. rewrite Hsh in *. lia.
  - intros k a b Ha Hb. rewrite lookup_zip_with, Ha, Hb. done.
Qed.

End Forward.

Lemma forward_writes_elementwise_sum_witness :
  let self := self_sample true in
  let p := after_construction 0 (process_init 2) in
  let x0 := vec2 1 (-2) 0 0 in
  let x1 := vec2 3 4 0 0 in
  ∃ outs p',
    setup_impl 0 same_shape self [x0; x1] [vec2 0 0 0 0] p = (Ok outs, p')
    ∧ ∃ ins' y',
        forward_impl Z.add self [x0; x1] outs p' = (Ok (ins', [y']), p')
        ∧ data y' = [4; 2]
        ∧ ins' = [set_data [4; 2] x0; x1].
Proof.
  intros self p x0 x1.
  eexists _, _. split; [reflexivity |].
  destruct (forward_writes_elementwise_sum Z.add 0 same_shape self x0 x1
              (vec2 0 0 0 0) p _ _ eq_refl eq_refl eq_refl eq_refl)
    as (ins' & y' & Hf & Hd & _ & _ & _ & Hi).
  exists ins', y'. split; [exact Hf |]. split; [exact Hd |].
  rewrite Hi, Hd. reflexivity.
Defined.

(** ** Backward *)

Section Backward.
Context {T : Type} (add : T → T → T).

(** C2: with [propagate_down = [true, true]] and [accum = [false, false]]
    Backward returns normally and both inputs' gradients are the output
    gradient itself, whatever they held before; the inputs' data and shapes
    are untouched. *)
Theorem backward_assigns_output_gradient self (x0 x1 y : Variable_t T) p :
  ∃ x0' x1',
    backward_impl add self [x0; x1] [y] [true; true] [false; false] p
    = (Ok [x0'; x1'], p)
    ∧ grad x0' = grad y ∧ grad x1' = grad y
    ∧ data x0' = data x0 ∧ data x1' = data x1
    ∧ shape x0' = shape x0 ∧ shape x1' = shape x1.
Proof. eexists _, _. split; [reflexivity |]. by split_and!. Qed.

(** C3: with [accum = [true, true]] Backward returns normally and the
    gradient of each input whose [propagate_down] flag is set is its previous
    gradient plus the output gradient, element by element; with
    [propagate_down = [true, true]] that is both inputs.  An input whose flag
    is not set keeps its gradient. *)
Theorem backward_accumulates_output_gradient
    self (x0 x1 y : Variable_t T) (p0 p1 : bool) p :
  (∃ x0' x1',
     backward_impl add self [x0; x1] [y] [true; true] [true; true] p
     = (Ok [x0'; x1'], p)
     ∧ grad x0' = zip_with add (grad x0) (grad y)
     ∧ grad x1' = zip_with add (grad x1) (grad y)
     ∧ (∀ k g d, grad x0 !! k = Some g → grad y !! k = Some d →
                 grad x0' !! k = Some (add g d))
     ∧ (∀ k g d, grad x1 !! k = Some g → grad y !! k = Some d →
                 grad x1' !! k = Some (add g d)))
  ∧ (∃ x0' x1',
       backward_impl add self [x0; x1] [y] [p0; p1] [true; true] p
       = (Ok [x0'; x1'], p)
       ∧ grad x0' = (if p0 then zip_with add (grad x0) (grad y) else grad x0)
       ∧ grad x1' = (if p1 then zip_with add (grad x1) (grad y) else grad x1)
       ∧ data x0' = data x0 ∧ data x1' = data x1).
Proof.
  split.
  - eexists _, _. split; [reflexivity |]. simpl. split_and!; try done.
    + intros k g d Hg Hd. by rewrite lookup_zip_with, Hg, Hd.
    + intros k g d Hg Hd. by rewrite lookup_zip_with, Hg, Hd.
  - eexists _, _. split; [reflexivity |]. by destruct p0, p1.
Qed.

(** C4: with [propagate_down = [true, false]] Backward returns input 1 as it
    was, gradient included; of input 0 only the gradient changes, to the
    output gradient or, when accumulating, to its sum with the previous
    one. *)
Theorem backward_selective_propagation
    self (x0 x1 y : Variable_t T) (a0 a1 : bool) p :
  ∃ x0',
    backward_impl add self [x0; x1] [y] [true; false] [a0; a1] p
    = (Ok [x0'; x1], p)
    ∧ grad x0' = (if a0 then zip_with add (grad x0) (grad y) else grad y)
    ∧ data x0' = data x0
    ∧ shape x0' = shape x0.
Proof. eexists. split; [reflexivity |]. by split_and!. Qed.

End Backward.


(** * Further properties of the constructor and the destructor *)

(** ** How std::stoi reads a device identifier *)

#[local] Arguments digit_char : simpl never.
#[local] Arguments digit_value : simpl never.
#[local] Arguments isspace : simpl never.
#[local] Arguments Ascii.eqb : simpl never.
#[local] Arguments INT_MIN : simpl never.
#[local] Arguments INT_MAX : simpl never.

Lemma digit_char_value d :
  (d < 10)%nat → digit_value (digit_char d) = Some (Z.of_nat d).
Proof. intros H. do 10 (destruct d as [|d]; [reflexivity |]). exfalso. lia. Qed.

Lemma digit_char_not_space d : (d < 10)%nat → isspace (digit_char d) = false.
Proof. intros H. do 10 (destruct d as [|d]; [reflexivity |]). exfalso. lia. Qed.

Lemma digit_char_not_sign d :
  (d < 10)%nat →
  Ascii.eqb (digit_char d) "-"%char = false
  ∧ Ascii.eqb (digit_char d) "+"%char = false.
Proof. intros H. do 10 (destruct d as [|d]; [by split |]). exfalso. lia. Qed.

Lemma app_empty (s : string) : "" +:+ s = s.
Proof. reflexivity. Qed.

Lemma app_String c (r s : string) : String c r +:+ s = String c (r +:+ s).
Proof. reflexivity. Qed.

Lemma skip_spaces_app ws s :
  all_spaces ws = true → skip_spaces (ws +:+ s) = skip_spaces s.
Proof.
  induction ws as [|c ws IH]; [done |].
  cbn [all_spaces]. intros [Hc Hws]%andb_true_iff.
  rewrite app_String. cbn [skip_spaces]. rewrite Hc. auto.
Qed.

Lemma parse_digits_string ds rest acc :
  all_digits ds → starts_with_digit rest = false →
  parse_digits (digits_string ds +:+ rest) acc
  = foldl (λ a d, 10 * a + Z.of_nat d) acc ds.
Proof.
  intros Hds Hrest. revert acc.
  induction Hds as [|d ds Hd _ IH]; intros acc.
  - cbn [digits_string foldl]. rewrite app_empty.
    destruct rest as [|c r]; [done |].
    cbn [parse_digits starts_with_digit] in *.
    by destruct (digit_value c).
  - cbn [digits_string foldl]. rewrite app_String. cbn [parse_digits].
    rewrite digit_char_value by done. apply IH.
Qed.

Lemma skip_spaces_nonspace c r :
  isspace c = false → skip_spaces (String c r) = String c r.
Proof. intros H. cbn [skip_spaces]. by rewrite H. Qed.

Lemma strip_sign_minus r : strip_sign (String "-"%char r) = (true, r).
Proof. reflexivity. Qed.

Lemma strip_sign_plus r : strip_sign (String "+"%char r) = (false, r).
Proof. reflexivity. Qed.

Lemma strip_sign_none c r :
  Ascii.eqb c "-"%char = false → Ascii.eqb c "+"%char = false →
  strip_sign (String c r) = (false, String c r).
Proof. intros Hm Hp. cbn [strip_sign]. by rewrite Hm, Hp. Qed.

(** After the white space and the sign: a digit sequence is converted, with a
    range check on the signed value. *)
Lemma stoi_digits (neg : bool) d ds rest :
  all_digits (d :: ds) → starts_with_digit rest = false →
  match String (digit_char d) (digits_string ds +:+ rest) with
  | String c _ =>
      match digit_value c with
      | Some _ =>
          let v := parse_digits
                     (String (digit_char d) (digits_string ds +:+ rest)) 0 in
          let v := if neg then - v else v in
          if (INT_MIN <=? v) && (v <=? INT_MAX) then Ok v
          else Throw std_out_of_range
      | None => Throw std_invalid_argument
      end
  | EmptyString => Throw std_invalid_argument
  end
  = let v := if neg then - digits_value (d :: ds) else digits_value (d :: ds) in
    if (INT_MIN <=? v) && (v <=? INT_MAX) then Ok v
    else Throw std_out_of_range.
Proof.
  intros Hds Hrest.
  assert (Hd : (d < 10)%nat) by (by inversion Hds).
  pose proof (parse_digits_string (d :: ds) rest 0 Hds Hrest) as Hparse.
  cbn [digits_string] in Hparse. rewrite app_String in Hparse.
  cbv iota beta. rewrite digit_char_value by done. by rewrite Hparse.
Qed.

Lemma stoi_number ws sg d ds rest :
  all_spaces ws = true → all_digits (d :: ds) →
  starts_with_digit rest = false →
  stoi (ws +:+ sign_string sg +:+ digits_string (d :: ds) +:+ rest)
  = let v := signed sg (digits_value (d :: ds)) in
    if (INT_MIN <=? v) && (v <=? INT_MAX) then Ok v
    else Throw std_out_of_range.
Proof.
  intros Hws Hds Hrest.
  assert (Hd : (d < 10)%nat) by (by inversion Hds).
  destruct (digit_char_not_sign d Hd) as [Hm Hp].
  unfold stoi. rewrite skip_spaces_app by done.
  cbn [digits_string]. rewrite app_String.
  destruct sg as [[|]|]; cbn [sign_string signed].
  - rewrite app_String, app_empty, skip_spaces_nonspace by done.
    rewrite strip_sign_minus. by apply (stoi_digits true).
  - rewrite app_String, app_empty, skip_spaces_nonspace by done.
    rewrite strip_sign_plus. by apply (stoi_digits false).
  - rewrite app_empty, skip_spaces_nonspace by (by apply digit_char_not_space).
    rewrite strip_sign_none by done. by apply (stoi_digits false).
Qed.

Lemma stoi_no_number ws sg rest :
  all_spaces ws = true → no_number sg rest = true →
  stoi (ws +:+ sign_string sg +:+ rest) = Throw std_invalid_argument.
Proof.
  intros Hws Hrest. unfold stoi. rewrite skip_spaces_app by done.
  destruct sg as [[|]|]; cbn [sign_string].
  - rewrite app_String, app_empty, skip_spaces_nonspace by done.
    rewrite strip_sign_minus. destruct rest as [|c r]; [done |].
    cbn [no_number starts_with_digit] in Hrest.
    by destruct (digit_value c).
  - rewrite app_String, app_empty, skip_spaces_nonspace by done.
    rewrite strip_sign_plus. destruct rest as [|c r]; [done |].
    cbn [no_number starts_with_digit] in Hrest.
    by destruct (digit_value c).
  - rewrite app_empty. destruct rest as [|c r]; [done |].
    cbn [no_number starts_with_digit] in Hrest.
    destruct (digit_value c) eqn:Hc; [done |].
    rewrite andb_true_l in Hrest.
    apply andb_true_iff in Hrest as [[Hsp Hm]%andb_true_iff Hp].
    apply negb_true_iff in Hsp, Hm, Hp.
    rewrite skip_spaces_nonspace, strip_sign_none by done.
    by rewrite Hc.
Qed.

Lemma stoi_range s v : stoi s = Ok v → INT_MIN ≤ v ≤ INT_MAX.
Proof.
  unfold stoi. destruct (strip_sign (skip_spaces s)) as [neg body].
  destruct body as [|c r]; [done |].
  destruct (digit_value c); [| done].
  destruct (_ && _) eqn:E; [| done].
  intros [= <-]. apply andb_true_iff in E as [?%Z.leb_le ?%Z.leb_le]. done.
Qed.

Lemma stoi_throws s e :
  stoi s = Throw e → e = std_invalid_argument ∨ e = std_out_of_range.
Proof.
  unfold stoi. destruct (strip_sign (skip_spaces s)) as [neg body].
  destruct body as [|c r]; [intros [= <-]; by left |].
  destruct (digit_value c); [| intros [= <-]; by left].
  destruct (_ && _); [done | intros [= <-]; by right].
Qed.

(** ** Outcomes of the constructor *)

(** X1: construction returns an instance exactly when [std::stoi] converts the
    device identifier and the library can still allocate two descriptors. *)
Theorem new_succeeds_iff ctx inplace p :
  (∃ self p', Add2CudaCudnn_new ctx inplace p = (Ok self, p'))
  ↔ (∃ d, stoi (device_id ctx) = Ok d) ∧ (2 ≤ cudnn_capacity p)%nat.
Proof.
  split.
  - intros (self & p' & H). apply new_inv in H as (d & c & Hd & Hc & _).
    split; [eauto | lia].
  - intros [[d Hd] Hc].
    destruct (cudnn_capacity p) as [|[|c]] eqn:E; [lia | lia |].
    eexists _, _. by apply (new_ok _ _ _ d c).
Qed.

(** X2: what a successful construction leaves: [device_] is the number
    [std::stoi] read, within the range of [int]; context and in-place flag
    are recorded; [cudnn_handle_] is not initialised; the two descriptors are
    distinct, were not live before, are live and carry no layout yet; every
    other descriptor is as it was; two units of capacity are taken and the
    log gains the two creations. *)
Theorem new_instance_state ctx inplace p self p' :
  wf_process p →
  Add2CudaCudnn_new ctx inplace p = (Ok self, p') →
  stoi (device_id ctx) = Ok (device_ self)
  ∧ INT_MIN ≤ device_ self ≤ INT_MAX
  ∧ ctx_ self = ctx ∧ inplace_ self = inplace
  ∧ cudnn_handle_ self = None
  ∧ input_desc_ self ≠ output_desc_ self
  ∧ cudnn_descs p !! input_desc_ self = None
  ∧ cudnn_descs p !! output_desc_ self = None
  ∧ cudnn_descs p' !! input_desc_ self = Some None
  ∧ cudnn_descs p' !! output_desc_ self = Some None
  ∧ (∀ h, h ≠ input_desc_ self → h ≠ output_desc_ self →
          cudnn_descs p' !! h = cudnn_descs p !! h)
  ∧ cudnn_capacity p = (cudnn_capacity p' + 2)%nat
  ∧ cudnn_log p'
    = cudnn_log p ++ [Created (input_desc_ self); Created (output_desc_ self)]
  ∧ singleton_Cuda p' = singleton_Cuda p.
Proof.
  intros Hwf H. apply new_inv in H as (d & c & Hd & Hc & -> & ->).
  cbn [constructed after_construction device_ ctx_ inplace_ cudnn_handle_
       input_desc_ output_desc_ cudnn_descs cudnn_capacity cudnn_log
       singleton_Cuda].
  split_and!; try done.
  - apply stoi_range in Hd. lia.
  - apply stoi_range in Hd. lia.
  - by apply wf_fresh_handle.
  - apply wf_fresh_handle; [done | lia].
  - rewrite lookup_insert_ne by lia. apply lookup_insert_eq.
  - apply lookup_insert_eq.
  - intros h Hi Ho. by rewrite !lookup_insert_ne.
  - lia.
  - by rewrite <- app_assoc.
Qed.

Lemma new_instance_state_witness :
  let ctx := {| device_id := " 3" |} in
  let self := constructed ctx true 3 (process_init 2) in
  let p' := after_construction 0 (process_init 2) in
  device_ self = 3
  ∧ cudnn_handle_ self = None
  ∧ cudnn_descs p' !! input_desc_ self = Some None
  ∧ cudnn_log p' = [Created 0%nat; Created 1%nat].
Proof.
  intros ctx self p'.
  destruct (new_instance_state ctx true (process_init 2) self p'
              (wf_process_init 2) eq_refl)
    as (_ & _ & _ & _ & Hh & _ & _ & _ & Hi & _ & _ & _ & Hl & _).
  split; [reflexivity |]. split; [exact Hh |]. split; [exact Hi |]. exact Hl.
Defined.

(** X3: when the identifier converts but only one descriptor fits, the
    constructor throws the allocation error after it has created the input
    descriptor: that descriptor was not live before, is live afterwards, and
    the log shows its creation and no destruction. *)
Theorem new_leaks_first_descriptor ctx inplace p d :
  wf_process p →
  stoi (device_id ctx) = Ok d →
  cudnn_capacity p = 1%nat →
  ∃ p' h,
    Add2CudaCudnn_new ctx inplace p
    = (Throw (cudnn_error CUDNN_STATUS_ALLOC_FAILED), p')
    ∧ cudnn_descs p !! h = None
    ∧ cudnn_descs p' !! h = Some None
    ∧ cudnn_log p' = cudnn_log p ++ [Created h]
    ∧ occurrences (Destroyed h) (cudnn_log p') = 0%nat
    ∧ cudnn_capacity p' = 0%nat.
Proof.
  intros Hwf Hd Hc. exists (after_first_creation p), (cudnn_next p).
  split; [by apply (new_room_for_one _ _ _ d) |].
  cbn [after_first_creation cudnn_descs cudnn_log cudnn_capacity].
  split_and!; try done.
  - by apply wf_fresh_handle.
  - apply lookup_insert_eq.
  - rewrite occurrences_app.
    rewrite (occurrences_absent _ (cudnn_log p))
      by (apply wf_fresh_event; [done | simpl; lia]).
    unfold occurrences. by rewrite filter_cons_False.
Qed.

Lemma new_leaks_first_descriptor_witness :
  ∃ p' h,
    Add2CudaCudnn_new {| device_id := "0" |} false (process_init 1)
    = (Throw (cudnn_error CUDNN_STATUS_ALLOC_FAILED), p')
    ∧ cudnn_descs (process_init 1) !! h = None
    ∧ cudnn_descs p' !! h = Some None
    ∧ cudnn_log p' = cudnn_log (process_init 1) ++ [Created h]
    ∧ occurrences (Destroyed h) (cudnn_log p') = 0%nat
    ∧ cudnn_capacity p' = 0%nat.
Proof.
  apply (new_leaks_first_descriptor {| device_id := "0" |} false
           (process_init 1) 0).
  - apply wf_process_init.
  - reflexivity.
  - reflexivity.
Defined.

(** X4: the constructor throws nothing but the two exceptions of [std::stoi]
    and the allocation error.  With an exception of [std::stoi] the process is
    untouched; with the allocation error either nothing was created or just
    the input descriptor was. *)
Theorem new_throws_only ctx inplace p e p' :
  Add2CudaCudnn_new ctx inplace p = (Throw e, p') →
  (stoi (device_id ctx) = Throw e
   ∧ (e = std_invalid_argument ∨ e = std_out_of_range)
   ∧ p' = p)
  ∨ (e = cudnn_error CUDNN_STATUS_ALLOC_FAILED
     ∧ ((cudnn_capacity p = 0%nat ∧ p' = p)
        ∨ (cudnn_capacity p = 1%nat ∧ p' = after_first_creation p))).
Proof.
  intros H. destruct (stoi (device_id ctx)) as [d|e'] eqn:Hd.
  - right. destruct (cudnn_capacity p) as [|[|c]] eqn:Hc.
    + rewrite (new_no_room _ _ _ d) in H by done.
      injection H as <- <-. split; [done |]. by left.
    + rewrite (new_room_for_one _ _ _ d) in H by done.
      injection H as <- <-. split; [done |]. by right.
    + rewrite (new_ok _ _ _ d c) in H by done. discriminate.
  - left. rewrite (new_bad_device_id _ _ _ e') in H by done.
    injection H as <- <-. split_and!; [done | | done].
    by apply (stoi_throws (device_id ctx)).
Qed.

Lemma new_throws_only_witness :
  (stoi "cuda:0" = Throw std_invalid_argument
   ∧ (std_invalid_argument = std_invalid_argument
      ∨ std_invalid_argument = std_out_of_range)
   ∧ process_init 2 = process_init 2)
  ∨ (std_invalid_argument = cudnn_error CUDNN_STATUS_ALLOC_FAILED
     ∧ ((cudnn_capacity (process_init 2) = 0%nat
         ∧ process_init 2 = process_init 2)
        ∨ (cudnn_capacity (process_init 2) = 1%nat
           ∧ process_init 2 = after_first_creation (process_init 2)))).
Proof.
  apply (new_throws_only {| device_id := "cuda:0" |} false (process_init 2)
           std_invalid_argument (process_init 2)).
  reflexivity.
Defined.

(** ** Device identifiers the constructor accepts and rejects *)

(** X5: for a device identifier made of white space, an optional sign, at
    least one decimal digit and then text that does not start with a digit,
    the constructor (given room for two descriptors) builds an instance whose
    [device_] is the signed number the digits denote; the white space and the
    trailing text are ignored.  When that number does not fit an [int] it
    throws [std::out_of_range] and leaves the process untouched. *)
Theorem new_reads_decimal_device_id ctx inplace p ws sg d ds rest c :
  device_id ctx = ws +:+ sign_string sg +:+ digits_string (d :: ds) +:+ rest →
  all_spaces ws = true →
  all_digits (d :: ds) →
  starts_with_digit rest = false →
  cudnn_capacity p = S (S c) →
  let v := signed sg (digits_value (d :: ds)) in
  Add2CudaCudnn_new ctx inplace p
  = if (INT_MIN <=? v) && (v <=? INT_MAX)
    then (Ok (constructed ctx inplace v p), after_construction c p)
    else (Throw std_out_of_range, p).
Proof.
  intros Hid Hws Hds Hrest Hc v.
  pose proof (stoi_number ws sg d ds rest Hws Hds Hrest) as Hstoi.
  rewrite <- Hid in Hstoi. cbv zeta in Hstoi. fold v in Hstoi.
  destruct ((INT_MIN <=? v) && (v <=? INT_MAX)).
  - by apply new_ok.
  - by apply new_bad_device_id.
Qed.

Lemma new_reads_decimal_device_id_witness :
  Add2CudaCudnn_new {| device_id := "  -12abc" |} false (process_init 2)
  = (Ok (constructed {| device_id := "  -12abc" |} false (-12) (process_init 2)),
     after_construction 0 (process_init 2))
  ∧ Add2CudaCudnn_new {| device_id := "4294967296" |} false (process_init 2)
    = (Throw std_out_of_range, process_init 2).
Proof.
  split.
  - apply (new_reads_decimal_device_id {| device_id := "  -12abc" |} false
             (process_init 2) "  " (Some true) 1 [2%nat] "abc" 0).
    + reflexivity.
    + reflexivity.
    + repeat constructor.
    + reflexivity.
    + reflexivity.
  - apply (new_reads_decimal_device_id {| device_id := "4294967296" |} false
             (process_init 2) "" None 4
             [2; 9; 4; 9; 6; 7; 2; 9; 6]%nat "" 0).
    + reflexivity.
    + reflexivity.
    + repeat constructor.
    + reflexivity.
    + reflexivity.
Defined.

(** X6: a device identifier in which the white space and the optional sign
    are not followed by a digit (the empty and the blank identifier included)
    makes the constructor throw [std::invalid_argument]; the process is
    untouched, whatever room the library has. *)
Theorem new_rejects_non_numeric_device_id ctx inplace p ws sg rest :
  device_id ctx = ws +:+ sign_string sg +:+ rest →
  all_spaces ws = true →
  no_number sg rest = true →
  Add2CudaCudnn_new ctx inplace p = (Throw std_invalid_argument, p).
Proof.
  intros Hid Hws Hrest. apply new_bad_device_id.
  rewrite Hid. by apply stoi_no_number.
Qed.

Lemma new_rejects_non_numeric_device_id_witness :
  Add2CudaCudnn_new {| device_id := "" |} true (process_init 2)
  = (Throw std_invalid_argument, process_init 2)
  ∧ Add2CudaCudnn_new {| device_id := " - 1" |} true (process_init 2)
    = (Throw std_invalid_argument, process_init 2)
  ∧ Add2CudaCudnn_new {| device_id := "gpu1" |} true (process_init 2)
    = (Throw std_invalid_argument, process_init 2).
Proof.
  split_and!.
  - by apply (new_rejects_non_numeric_device_id {| device_id := "" |} true
                (process_init 2) "" None "").
  - by apply (new_rejects_non_numeric_device_id {| device_id := " - 1" |} true
                (process_init 2) " " (Some true) " 1").
  - by apply (new_rejects_non_numeric_device_id {| device_id := "gpu1" |} true
                (process_init 2) "" None "gpu1").
Defined.

(** C5, as amended: construction fails fatally, creating no instance and
    leaving the process as it was, when after optional white space and an
    optional sign the device identifier has no decimal digit (then
    [std::invalid_argument]) and when the number it starts with does not fit
    an [int] (then [std::out_of_range]); it also fails fatally when one of the
    two [cudnnCreateTensorDescriptor] calls reports a status other than
    success. *)
Theorem construction_fails_fatally ctx inplace p :
  (∀ ws sg rest,
      device_id ctx = ws +:+ sign_string sg +:+ rest →
      all_spaces ws = true →
      no_number sg rest = true →
      Add2CudaCudnn_new ctx inplace p = (Throw std_invalid_argument, p))
  ∧ (∀ ws sg d ds rest,
        device_id ctx
        = ws +:+ sign_string sg +:+ digits_string (d :: ds) +:+ rest →
        all_spaces ws = true →
        all_digits (d :: ds) →
        starts_with_digit rest = false →
        signed sg (digits_value (d :: ds)) < INT_MIN
        ∨ INT_MAX < signed sg (digits_value (d :: ds)) →
        Add2CudaCudnn_new ctx inplace p = (Throw std_out_of_range, p))
  ∧ (∀ d st,
        stoi (device_id ctx) = Ok d →
        st ≠ CUDNN_STATUS_SUCCESS →
        (cudnnCreateTensorDescriptor p).1.1 = st
        ∨ ((cudnnCreateTensorDescriptor p).1.1 = CUDNN_STATUS_SUCCESS
           ∧ (cudnnCreateTensorDescriptor (cudnnCreateTensorDescriptor p).2).1.1 = st) →
        ∃ p', Add2CudaCudnn_new ctx inplace p = (Throw (cudnn_error st), p')).
Proof.
  split_and!.
  - intros ws sg rest Hid Hws Hrest. apply new_bad_device_id.
    rewrite Hid. by apply stoi_no_number.
  - intros ws sg d ds rest Hid Hws Hds Hrest Hrange. apply new_bad_device_id.
    rewrite Hid, stoi_number by done. cbv zeta.
    destruct ((INT_MIN <=? _) && (_ <=? INT_MAX)) eqn:E; [| done].
    apply andb_true_iff in E as [?%Z.leb_le ?%Z.leb_le]. lia.
  - intros d st Hd Hst Hfail.
    rewrite !create_status in Hfail.
    destruct (cudnn_capacity p) as [|[|c]] eqn:Hc.
    + destruct Hfail as [<- | [? _]]; [| done].
      eexists. by apply (new_no_room _ _ _ d).
    + destruct Hfail as [<- | [_ Hsnd]]; [done |].
      unfold cudnnCreateTensorDescriptor in Hsnd. rewrite Hc in Hsnd.
      simpl in Hsnd. subst st.
      eexists. by apply (new_room_for_one _ _ _ d).
    + destruct Hfail as [<- | [_ Hsnd]]; [done |].
      unfold cudnnCreateTensorDescriptor in Hsnd. rewrite Hc in Hsnd.
      simpl in Hsnd. by subst st.
Qed.

Lemma construction_fails_fatally_witness :
  Add2CudaCudnn_new {| device_id := " gpu0" |} true (process_init 2)
  = (Throw std_invalid_argument, process_init 2)
  ∧ Add2CudaCudnn_new {| device_id := "-2147483649" |} true (process_init 2)
    = (Throw std_out_of_range, process_init 2)
  ∧ ∃ p', Add2CudaCudnn_new {| device_id := "0" |} true (process_init 1)
          = (Throw (cudnn_error CUDNN_STATUS_ALLOC_FAILED), p').
Proof.
  split_and!.
  - apply (proj1 (construction_fails_fatally
                    {| device_id := " gpu0" |} true (process_init 2))
             " " None "gpu0"); reflexivity.
  - apply (proj1 (proj2 (construction_fails_fatally
                    {| device_id := "-2147483649" |} true (process_init 2)))
             "" (Some true) 2%nat [1; 4; 7; 4; 8; 3; 6; 4; 9]%nat "").
    + reflexivity.
    + reflexivity.
    + repeat constructor.
    + reflexivity.
    + left. reflexivity.
  - apply (proj2 (proj2 (construction_fails_fatally
                    {| device_id := "0" |} true (process_init 1))) 0).
    + reflexivity.
    + discriminate.
    + right. split; reflexivity.
Defined.

(** C5, as stated, makes every identifier that is not a valid integer fail.
    [std::stoi] converts the number a text starts with and ignores the rest,
    so "1x" and "3.9", which are no integers, build instances for devices 1
    and 3. *)
Lemma construction_accepts_trailing_text :
  valid_integer_text "1x" = false
  ∧ Add2CudaCudnn_new {| device_id := "1x" |} false (process_init 2)
    = (Ok (constructed {| device_id := "1x" |} false 1 (process_init 2)),
       after_construction 0 (process_init 2))
  ∧ valid_integer_text "3.9" = false
  ∧ Add2CudaCudnn_new {| device_id := "3.9" |} false (process_init 2)
    = (Ok (constructed {| device_id := "3.9" |} false 3 (process_init 2)),
       after_construction 0 (process_init 2)).
Proof. split_and!; reflexivity. Qed.

(** ** Two instances in one process *)

Ltac solve_lookup :=
  repeat match goal with x := _ |- _ => subst x end;
  cbn [after_construction after_destruction constructed cudnn_descs
       cudnn_next input_desc_ output_desc_];
  rewrite ?lookup_delete, ?lookup_insert;
  repeat case_decide; try lia; eauto.

(** X8: two instances built one after the other in a process own four
    pairwise distinct descriptors.  Destroying either one returns normally and
    leaves the other owning its descriptors; once the other is destroyed too,
    the descriptor table and the capacity are what they were before the first
    construction. *)
Theorem two_instances_independent ctx1 inplace1 ctx2 inplace2 p a p1 b p2 :
  wf_process p →
  Add2CudaCudnn_new ctx1 inplace1 p = (Ok a, p1) →
  Add2CudaCudnn_new ctx2 inplace2 p1 = (Ok b, p2) →
  NoDup [input_desc_ a; output_desc_ a; input_desc_ b; output_desc_ b]
  ∧ owns a p2 ∧ owns b p2
  ∧ (∃ q, Add2CudaCudnn_delete b p2 = (Ok (), q) ∧ owns a q)
  ∧ ∃ p3, Add2CudaCudnn_delete a p2 = (Ok (), p3) ∧ owns b p3
          ∧ ∃ p4, Add2CudaCudnn_delete b p3 = (Ok (), p4)
                  ∧ cudnn_descs p4 = cudnn_descs p
                  ∧ cudnn_capacity p4 = cudnn_capacity p.
Proof.
  intros Hwf Ha Hb.
  apply new_inv in Ha as (d1 & c1 & _ & Hc1 & -> & ->).
  apply new_inv in Hb as (d2 & c2 & _ & Hc2 & -> & ->).
  cbn [after_construction cudnn_capacity] in Hc2. subst c1.
  set (a := constructed ctx1 inplace1 d1 p).
  set (p1 := after_construction (S (S c2)) p).
  set (b := constructed ctx2 inplace2 d2 p1).
  set (p2 := after_construction c2 p1).
  assert (Hoa : owns a p2) by (unfold owns; split_and!; solve_lookup).
  assert (Hob : owns b p2) by apply constructed_owns.
  assert (Hob3 : owns b (after_destruction a p2))
    by (unfold owns; split_and!; solve_lookup).
  split_and!.
  - subst a b p1 p2.
    cbn [constructed after_construction input_desc_ output_desc_ cudnn_next].
    repeat (apply NoDup_cons; split; [rewrite ?elem_of_cons, ?elem_of_nil; lia |]).
    apply NoDup_nil_2.
  - exact Hoa.
  - exact Hob.
  - exists (after_destruction b p2). split; [by apply delete_owned |].
    unfold owns; split_and!; solve_lookup.
  - exists (after_destruction a p2). split; [by apply delete_owned |].
    split; [exact Hob3 |].
    exists (after_destruction b (after_destruction a p2)).
    split; [by apply delete_owned |]. split.
    + apply map_eq. intros h. subst a b p1 p2.
      cbn [after_construction after_destruction constructed
           cudnn_descs cudnn_next input_desc_ output_desc_].
      rewrite !lookup_delete, !lookup_insert.
      repeat case_decide; try done; symmetry;
        (apply wf_fresh_handle; [done | lia]).
    + subst a b p1 p2.
      cbn [after_construction after_destruction cudnn_capacity]. lia.
Qed.

Lemma two_instances_independent_witness :
  let a := constructed {| device_id := "0" |} false 0 (process_init 4) in
  let p1 := after_construction 2 (process_init 4) in
  let b := constructed {| device_id := "1" |} true 1 p1 in
  let p2 := after_construction 0 p1 in
  NoDup [input_desc_ a; output_desc_ a; input_desc_ b; output_desc_ b]
  ∧ owns a p2 ∧ owns b p2
  ∧ (∃ q, Add2CudaCudnn_delete b p2 = (Ok (), q) ∧ owns a q)
  ∧ ∃ p3, Add2CudaCudnn_delete a p2 = (Ok (), p3) ∧ owns b p3
          ∧ ∃ p4, Add2CudaCudnn_delete b p3 = (Ok (), p4)
                  ∧ cudnn_descs p4 = cudnn_descs (process_init 4)
                  ∧ cudnn_capacity p4 = cudnn_capacity (process_init 4).
Proof.
  intros a p1 b p2.
  apply (two_instances_independent {| device_id := "0" |} false
           {| device_id := "1" |} true (process_init 4) a p1 b p2).
  - apply wf_process_init.
  - reflexivity.
  - reflexivity.
Defined.

(** ** The singleton behind allowed_array_classes *)

(** X9: once the [Cuda] singleton exists, [allowed_array_classes()] is a pure
    read: it returns that singleton's list and leaves the whole process as it
    was, whatever a fresh singleton would hold.  The first call in a process
    fills the slot, so a call that follows any call changes nothing more. *)
Theorem allowed_array_classes_reads_singleton Cuda_new self1 self2 p :
  (∀ c, singleton_Cuda p = Some c →
        allowed_array_classes Cuda_new self1 p = (Ok (array_classes c), p))
  ∧ allowed_array_classes Cuda_new self2
      (allowed_array_classes Cuda_new self1 p).2
    = allowed_array_classes Cuda_new self1 p.
Proof.
  split.
  - intros c Hc. rewrite allowed_array_classes_eq.
    unfold the_Cuda. rewrite Hc. simpl. rewrite <- Hc. by destruct p.
  - rewrite !allowed_array_classes_eq. reflexivity.
Qed.

Lemma allowed_array_classes_reads_singleton_witness :
  let p := {| cudnn_descs := ∅; cudnn_next := 0; cudnn_capacity := 2;
              cudnn_log := [];
              singleton_Cuda := Some {| array_classes_ := ["CudaCachedArray"] |} |} in
  allowed_array_classes Cuda_sample (self_sample false) p
  = (Ok ["CudaCachedArray"], p).
Proof.
  intros p.
  apply (proj1 (allowed_array_classes_reads_singleton Cuda_sample
                  (self_sample false) (self_sample true) p)
           {| array_classes_ := ["CudaCachedArray"] |}).
  reflexivity.
Defined.
